(** * A dataflow pipeline: the graph engine of [pipeline.h]

    A shallow embedding of [namespace ppl]: the error taxonomy, the [node]
    capability interface and the [pipeline] class with its node table,
    handle functions, [connect] and [run].

    Conventions of the embedding.
    - [std::size_t] is [N]; the only size-dependent constant of the header
      is [std::numeric_limits<std::size_t>::max()], taken for a 64-bit
      target.  The header performs no arithmetic on handles, so there is
      no wrap-around to write out; [std::vector::size()] is exact.
    - [int] is [Z]; slots are passed through untouched.
    - [std::vector<std::unique_ptr<node>>] is [list (option Nd)]: a slot
      is [Some n] while its [unique_ptr] owns a node and [None] after
      [reset()].
    - [std::vector::operator[]] does not check its index.  An index past
      the end is undefined behaviour, which the embedding makes an
      outcome of its own, [Undefined].
    - A raw [node*] is represented by the index of the table slot that
      owns the pointee.
    - A member function that may change the object is a function from the
      object before the call to an [outcome] holding the object after
      it, whether the call returned or threw. *)

From stdpp Require Import base numbers list strings gmap.

Module ppl.

(** ** 3.1 pipeline_error *)

Module pipeline_error_kind.

Inductive t : Set :=
| invalid_node_id
| no_such_slot
| slot_already_used
| connection_type_mismatch.

#[global] Instance eq_dec : EqDecision t.
Proof. solve_decision. Defined.

End pipeline_error_kind.

(** [struct pipeline_error : std::exception], built from a kind and
    answering [kind()]. *)
Record pipeline_error : Set := { kind : pipeline_error_kind.t }.

#[global] Instance pipeline_error_eq_dec : EqDecision pipeline_error.
Proof. solve_decision. Defined.

(** ** Outcomes of a call

    A call on an object of type [S] returns a value, leaves by throwing a
    [pipeline_error], or has no defined behaviour.  The first two carry
    the object as the call left it. *)

Inductive outcome (S A : Type) : Type :=
| Returns (a : A) (s : S)
| Throws (e : pipeline_error) (s : S)
| Undefined.

Arguments Returns {S A} a s.
Arguments Throws {S A} e s.
Arguments Undefined {S A}.

Definition call (S A : Type) : Type := S -> outcome S A.

Definition ret {S A : Type} (a : A) : call S A := fun s => Returns a s.

Definition throw {S A : Type} (k : pipeline_error_kind.t) : call S A :=
  fun s => Throws {| kind := k |} s.

Definition bind {S A B : Type} (m : call S A) (f : A -> call S B) : call S B :=
  fun s =>
    match m s with
    | Returns a s' => f a s'
    | Throws e s' => Throws e s'
    | Undefined => Undefined
    end.

Declare Scope call_scope.
Delimit Scope call_scope with call.
Notation "x <- m ;; f" := (bind m (fun x => f))
  (at level 100, m at next level, right associativity) : call_scope.

(** ** 3.2 node *)

Module poll.

Inductive t : Set :=
| ready
| empty
| closed.

#[global] Instance eq_dec : EqDecision t.
Proof. solve_decision. Defined.

End poll.

(** A [const node*]: the index of the owning table slot. *)
Definition node_ptr : Set := N.

Module node.

(** [class node]: the three virtual member functions.  The two private
    ones are calls on the node; they read the other nodes through the
    pointers the node holds, that is, through the node table. *)
Class t (Nd : Type) : Type := {
  name : Nd -> string;
  poll_next : list (option Nd) -> call Nd poll.t;
  connect : list (option Nd) -> node_ptr -> Z -> call Nd unit
}.

End node.

(** ** 3.6 pipeline *)

Module pipeline.

(** [using node_id = std::size_t] *)
Definition node_id : Set := N.

(** [std::numeric_limits<std::size_t>::max()] *)
Definition numeric_limits_max : N := 2 ^ 64 - 1.

(** [struct connection] *)
Record connection : Set := {
  src : node_ptr;
  dst : node_ptr;
  slot : Z
}.

Section with_node.

Context {Nd : Type} `{!node.t Nd}.

(** The private data members. *)
Record t : Type := {
  nodes : list (option Nd);
  node_ids : gmap node_ptr Z;
  connections : list connection
}.

(** [pipeline() = default] *)
Definition default : t :=
  {| nodes := []; node_ids := ∅; connections := [] |}.

(** The pipeline with its node table replaced. *)
Definition with_nodes (l : list (option Nd)) (this : t) : t :=
  {| nodes := l; node_ids := node_ids this; connections := connections this |}.

(** *** 3.6.1 handles

    The three handle functions are non-static members that read nothing
    of the object; [this] is their first argument. *)

Definition invalid_node_id (this : t) : node_id := numeric_limits_max.

Definition is_valid (this : t) (id : node_id) : bool :=
  negb (id =? invalid_node_id this)%N.

Definition make_node_id (this : t) (value : N) : node_id := value.

(** *** 3.6.3 the node table *)

(** [create_node<N>(args...)]; [new_node] is the node [make_unique] has
    constructed from the arguments. *)
Definition create_node (new_node : Nd) : call t node_id :=
  fun this =>
    let id := make_node_id this (N.of_nat (length (nodes this))) in
    Returns id (with_nodes (nodes this ++ [Some new_node]) this).

Definition erase_node (n_id : node_id) : call t unit :=
  fun this =>
    if is_valid this n_id then
      match nodes this !! N.to_nat n_id with
      | Some _ => Returns tt (with_nodes (<[N.to_nat n_id := None]> (nodes this)) this)
      | None => Undefined
      end
    else Returns tt this.

(** The value returned stands for the pointer: the node it points to, or
    [None] for [nullptr]. *)
Definition get_node (n_id : node_id) : call t (option Nd) :=
  fun this =>
    if is_valid this n_id then
      match nodes this !! N.to_nat n_id with
      | Some owned => Returns owned this
      | None => Undefined
      end
    else Returns None this.

(** *** 3.6.4 connect *)

(** A call [m] on the node [obj] owned by slot [i]: the slot holds the
    node as the call left it. *)
Definition on_node {A : Type} (i : node_id) (obj : Nd) (m : call Nd A) : call t A :=
  fun this =>
    match m obj with
    | Returns a obj' => Returns a (with_nodes (<[N.to_nat i := Some obj']> (nodes this)) this)
    | Throws e obj' => Throws e (with_nodes (<[N.to_nat i := Some obj']> (nodes this)) this)
    | Undefined => Undefined
    end.

(** The pointers [src_node] and [dst_node] are the slots [src] and [dst]. *)
Definition connect (src dst : node_id) (slot : Z) : call t unit :=
  (src_node <- get_node src ;;
   dst_node <- get_node dst ;;
   match src_node, dst_node with
   | Some _, Some dst_obj =>
       fun this => on_node dst dst_obj (node.connect (nodes this) src slot) this
   | _, _ => throw pipeline_error_kind.invalid_node_id
   end)%call.

(** *** 3.6.5 run

    [step] is declared by the class and defined outside the header; [run]
    is taken over any [step].  The loop need not end, so [run] gets a
    bound on the number of iterations and answers [None] when the bound
    is reached. *)

Section run.

Variable step : call t bool.

Fixpoint run (fuel : nat) (this : t) : option (outcome t unit) :=
  match fuel with
  | O => None
  | S fuel' =>
      match step this with
      | Returns true this' => Some (Returns tt this')
      | Returns false this' => run fuel' this'
      | Throws e this' => Some (Throws e this')
      | Undefined => Some Undefined
      end
  end.

(** [steps k this this']: [k] calls of [step] in a row, each reporting
    that the graph is not complete, lead from [this] to [this']. *)
Inductive steps : nat -> t -> t -> Prop :=
| steps_O this : steps 0 this this
| steps_S k this this1 this' :
    step this = Returns false this1 -> steps k this1 this' -> steps (S k) this this'.

End run.

(** *** Host programs

    A host drives the node table by a sequence of [create_node] and
    [erase_node] calls; [host] runs one and collects the handles that
    [create_node] returned. *)

Inductive table_call : Type :=
| call_create (new_node : Nd)
| call_erase (n_id : node_id).

Fixpoint host (cs : list table_call) : call t (list node_id) :=
  match cs with
  | [] => ret []
  | call_create new_node :: cs' =>
      (id <- create_node new_node ;; ids <- host cs' ;; ret (id :: ids))%call
  | call_erase n_id :: cs' =>
      (_ <- erase_node n_id ;; host cs')%call
  end.

(** Every [erase_node] of the sequence is given the invalid handle or a
    handle inside the table, which has [size] slots at the start. *)
Fixpoint erases_in_table (size : nat) (cs : list table_call) : bool :=
  match cs with
  | [] => true
  | call_create _ :: cs' => erases_in_table (S size) cs'
  | call_erase n_id :: cs' =>
      ((n_id =? numeric_limits_max)%N || (n_id <? N.of_nat size)%N)
      && erases_in_table size cs'
  end.

(** The nodes handed to the [create_node] calls of a sequence, in the
    order of the calls. *)
Fixpoint created (cs : list table_call) : list Nd :=
  match cs with
  | [] => []
  | call_create new_node :: cs' => new_node :: created cs'
  | call_erase _ :: cs' => created cs'
  end.

(** *** Slots of the table

    The handle [h] names a slot whose node has been erased: the slot is
    there and owns nothing. *)

Definition erased (this : t) (h : node_id) : Prop :=
  nodes this !! N.to_nat h = Some None.

End with_node.

Arguments t Nd : clear implicits.
Arguments table_call Nd : clear implicits.

End pipeline.

End ppl.

Import ppl.

(** ** Stub nodes

    The header leaves every concrete node to its users: [sink] inherits
    the pure virtual functions and [source::connect] is declared only.
    The examples below need nodes to put into a pipeline. *)

Module stub.

Inductive value_type : Set :=
| int_type
| string_type.

#[global] Instance value_type_eq_dec : EqDecision value_type.
Proof. solve_decision. Defined.

(** Modelled from the spec: a concrete node, which the header does not
    contain.  It has a display name, the output type of its [producer]
    base ([None] for [void]), the input tuple of its [component] base, and
    the upstream node bound to each slot. *)
Record t : Type := {
  label : string;
  output_type : option value_type;
  input_type : list value_type;
  upstream : gmap Z node_ptr
}.

(** Modelled from the spec: [source<Output>] is [component<tuple<>, Output>]. *)
Definition source (l : string) (o : value_type) : t :=
  {| label := l; output_type := Some o; input_type := []; upstream := ∅ |}.

(** Modelled from the spec: [sink<Input>] is [component<tuple<Input>, void>]. *)
Definition sink (l : string) (i : value_type) : t :=
  {| label := l; output_type := None; input_type := [i]; upstream := ∅ |}.

(** Modelled from the spec: the private [connect] of a node, whose body is
    not in the header.  It records the upstream binding and validates
    nothing, being called after validation; on a node without input
    slots it always fails (the spec names no error for that; a node
    without slots has no such slot). *)
Definition connect (table : list (option t)) (source : node_ptr) (slot : Z) : call t unit :=
  fun this =>
    match input_type this with
    | [] => Throws {| kind := pipeline_error_kind.no_such_slot |} this
    | _ :: _ =>
        Returns tt {| label := label this;
                      output_type := output_type this;
                      input_type := input_type this;
                      upstream := <[slot := source]> (upstream this) |}
    end.

(** Modelled from the spec: the private [poll_next] of a node, whose body
    is not in the header.  The stub has nothing to produce: it is closed
    from its first poll on, as the contract of [poll::closed] asks. *)
Definition poll_next (table : list (option t)) : call t poll.t :=
  fun this => Returns poll.closed this.

#[global] Instance stub_node : node.t t :=
  {| node.name := label; node.poll_next := poll_next; node.connect := connect |}.

End stub.

(** ** Example pipelines *)

Definition int_source_A : stub.t := stub.source "A" stub.int_type.
Definition int_source_A2 : stub.t := stub.source "A2" stub.int_type.
Definition int_sink_B : stub.t := stub.sink "B" stub.int_type.
Definition string_sink_B : stub.t := stub.sink "B" stub.string_type.

(** A pipeline that has never been given a node. *)
Definition fresh : pipeline.t stub.t := pipeline.default.

(** One node, created and erased again. *)
Definition one_erased : pipeline.t stub.t :=
  {| pipeline.nodes := [None]; pipeline.node_ids := ∅; pipeline.connections := [] |}.

(** One live node. *)
Definition one_source : pipeline.t stub.t :=
  {| pipeline.nodes := [Some int_source_A];
     pipeline.node_ids := ∅; pipeline.connections := [] |}.

(** [Source<int>] A and [Sink<string>] B. *)
Definition int_to_string : pipeline.t stub.t :=
  {| pipeline.nodes := [Some int_source_A; Some string_sink_B];
     pipeline.node_ids := ∅; pipeline.connections := [] |}.

(** [Source<int>] A and [Sink<int>] B. *)
Definition int_to_int : pipeline.t stub.t :=
  {| pipeline.nodes := [Some int_source_A; Some int_sink_B];
     pipeline.node_ids := ∅; pipeline.connections := [] |}.

(** Two [Source<int>], A and A2, and a [Sink<int>] B, not connected. *)
Definition three_nodes : pipeline.t stub.t :=
  {| pipeline.nodes := [Some int_source_A; Some int_source_A2; Some int_sink_B];
     pipeline.node_ids := ∅; pipeline.connections := [] |}.

(** The sink [B] with slot 0 bound to the node behind [p]. *)
Definition bound_sink (i : stub.value_type) (p : node_ptr) : stub.t :=
  {| stub.label := "B"; stub.output_type := None; stub.input_type := [i];
     stub.upstream := {[ 0%Z := p ]} |}.

(** Two [Source<int>] and a [Sink<int>] whose slot 0 is bound to the
    source behind [p]. *)
Definition two_sources (p : node_ptr) : pipeline.t stub.t :=
  {| pipeline.nodes := [Some int_source_A; Some int_source_A2; Some (bound_sink stub.int_type p)];
     pipeline.node_ids := ∅; pipeline.connections := [] |}.

(** Two bodies for [step], to run the loop of [run] on: one that drops
    the first slot of the table and reports completion once the table is
    empty, and one that never reports completion. *)
Definition draining_step : call (pipeline.t stub.t) bool :=
  fun this =>
    match pipeline.nodes this with
    | [] => Returns true this
    | _ :: rest => Returns false (pipeline.with_nodes rest this)
    end.

Definition idle_step : call (pipeline.t stub.t) bool :=
  fun this => Returns false this.

(** A [step] that fails on an empty table. *)
Definition failing_step : call (pipeline.t stub.t) bool :=
  fun this =>
    match pipeline.nodes this with
    | [] => Throws {| kind := pipeline_error_kind.invalid_node_id |} this
    | _ :: rest => Returns false (pipeline.with_nodes rest this)
    end.

(** * Properties *)

(** The example pipelines are what the calls of the interface build. *)

Lemma one_erased_built :
  pipeline.host [pipeline.call_create int_source_A; pipeline.call_erase 0%N] fresh
  = Returns [0%N] one_erased.
Proof. reflexivity. Qed.

Lemma one_source_built :
  pipeline.host [pipeline.call_create int_source_A] fresh = Returns [0%N] one_source.
Proof. reflexivity. Qed.

Lemma int_to_string_built :
  pipeline.host [pipeline.call_create int_source_A; pipeline.call_create string_sink_B] fresh
  = Returns [0%N; 1%N] int_to_string.
Proof. reflexivity. Qed.

Lemma three_nodes_built :
  pipeline.host
    [pipeline.call_create int_source_A; pipeline.call_create int_source_A2;
     pipeline.call_create int_sink_B] fresh
  = Returns [0%N; 1%N; 2%N] three_nodes.
Proof. reflexivity. Qed.

Lemma int_to_int_built :
  pipeline.host [pipeline.call_create int_source_A; pipeline.call_create int_sink_B] fresh
  = Returns [0%N; 1%N] int_to_int.
Proof. reflexivity. Qed.

(** ** Handles and the node table *)

Section table_facts.

Context {Nd : Type} `{!node.t Nd}.

Implicit Types (this that : pipeline.t Nd) (h : pipeline.node_id).

Lemma with_nodes_same this : pipeline.with_nodes (pipeline.nodes this) this = this.
Proof. by destruct this. Qed.

Lemma is_valid_true this h :
  pipeline.is_valid this h = true <-> h <> pipeline.numeric_limits_max.
Proof.
  unfold pipeline.is_valid, pipeline.invalid_node_id.
  rewrite negb_true_iff. apply N.eqb_neq.
Qed.

Lemma is_valid_false this h :
  pipeline.is_valid this h = false <-> h = pipeline.invalid_node_id this.
Proof.
  unfold pipeline.is_valid. rewrite negb_false_iff. apply N.eqb_eq.
Qed.

Lemma get_node_invalid this :
  pipeline.get_node (pipeline.invalid_node_id this) this = Returns None this.
Proof.
  unfold pipeline.get_node.
  by rewrite (proj2 (is_valid_false this _) eq_refl).
Qed.

Lemma get_node_erased this h :
  pipeline.erased this h -> pipeline.get_node h this = Returns None this.
Proof.
  unfold pipeline.erased, pipeline.get_node. intros ->.
  by destruct (pipeline.is_valid this h).
Qed.

Lemma get_node_in_table this h owned :
  h <> pipeline.numeric_limits_max ->
  pipeline.nodes this !! N.to_nat h = Some owned ->
  pipeline.get_node h this = Returns owned this.
Proof.
  intros Hh Hl. unfold pipeline.get_node.
  by rewrite (proj2 (is_valid_true this h) Hh), Hl.
Qed.

Lemma get_node_outside this h :
  h <> pipeline.numeric_limits_max ->
  length (pipeline.nodes this) <= N.to_nat h ->
  pipeline.get_node h this = Undefined.
Proof.
  intros Hh Hl. unfold pipeline.get_node.
  rewrite (proj2 (is_valid_true this h) Hh).
  by rewrite (lookup_ge_None_2 _ _ Hl).
Qed.

Lemma get_node_never_throws this h e that :
  pipeline.get_node h this <> Throws e that.
Proof.
  unfold pipeline.get_node.
  destruct (pipeline.is_valid this h); [|done].
  by destruct (pipeline.nodes this !! N.to_nat h).
Qed.

Lemma get_node_reads_only this h r that :
  pipeline.get_node h this = Returns r that -> that = this.
Proof.
  unfold pipeline.get_node.
  destruct (pipeline.is_valid this h); [|congruence].
  destruct (pipeline.nodes this !! N.to_nat h); congruence.
Qed.

Lemma erase_node_invalid this :
  pipeline.erase_node (pipeline.invalid_node_id this) this = Returns tt this.
Proof.
  unfold pipeline.erase_node.
  by rewrite (proj2 (is_valid_false this _) eq_refl).
Qed.

Lemma erase_node_erased this h :
  pipeline.erased this h -> pipeline.erase_node h this = Returns tt this.
Proof.
  unfold pipeline.erased, pipeline.erase_node. intros Hl.
  destruct (pipeline.is_valid this h); [|done].
  rewrite Hl, (list_insert_id _ _ _ Hl). by rewrite with_nodes_same.
Qed.

Lemma erase_node_in_table this h owned :
  h <> pipeline.numeric_limits_max ->
  pipeline.nodes this !! N.to_nat h = Some owned ->
  pipeline.erase_node h this
  = Returns tt (pipeline.with_nodes (<[N.to_nat h := None]> (pipeline.nodes this)) this).
Proof.
  intros Hh Hl. unfold pipeline.erase_node.
  by rewrite (proj2 (is_valid_true this h) Hh), Hl.
Qed.

Lemma erase_node_outside this h :
  h <> pipeline.numeric_limits_max ->
  length (pipeline.nodes this) <= N.to_nat h ->
  pipeline.erase_node h this = Undefined.
Proof.
  intros Hh Hl. unfold pipeline.erase_node.
  rewrite (proj2 (is_valid_true this h) Hh).
  by rewrite (lookup_ge_None_2 _ _ Hl).
Qed.

Lemma erase_node_never_throws this h e that :
  pipeline.erase_node h this <> Throws e that.
Proof.
  unfold pipeline.erase_node.
  destruct (pipeline.is_valid this h); [|done].
  by destruct (pipeline.nodes this !! N.to_nat h).
Qed.

(** Where [erase_node] returns, it has touched the slot of its handle
    and nothing else. *)
Lemma erase_node_frame this h that :
  pipeline.erase_node h this = Returns tt that ->
  pipeline.connections that = pipeline.connections this
  /\ pipeline.node_ids that = pipeline.node_ids this
  /\ length (pipeline.nodes that) = length (pipeline.nodes this)
  /\ forall i, i <> N.to_nat h ->
       pipeline.nodes that !! i = pipeline.nodes this !! i.
Proof.
  unfold pipeline.erase_node.
  destruct (pipeline.is_valid this h).
  - destruct (pipeline.nodes this !! N.to_nat h); [|done].
    intros [= <-]. cbn. rewrite length_insert. repeat split.
    intros i Hi. by apply list_lookup_insert_ne.
  - by intros [= <-].
Qed.

Lemma erase_node_live_erases this h n :
  h <> pipeline.numeric_limits_max ->
  pipeline.nodes this !! N.to_nat h = Some (Some n) ->
  exists that, pipeline.erase_node h this = Returns tt that /\ pipeline.erased that h.
Proof.
  intros Hh Hl. eexists. split; [by eapply erase_node_in_table|].
  unfold pipeline.erased. cbn. apply list_lookup_insert_eq.
  by eapply lookup_lt_Some.
Qed.

End table_facts.

(** ** Sequences of table calls *)

Section host_facts.

Context {Nd : Type} `{!node.t Nd}.

Implicit Types (this that : pipeline.t Nd) (h : pipeline.node_id).
Implicit Types (cs : list (pipeline.table_call Nd)).

Lemma create_node_returns this new_node :
  pipeline.create_node new_node this
  = Returns (N.of_nat (length (pipeline.nodes this)))
      (pipeline.with_nodes (pipeline.nodes this ++ [Some new_node]) this).
Proof. reflexivity. Qed.

Lemma create_node_keeps_erased this h new_node :
  pipeline.erased this h ->
  pipeline.erased (pipeline.with_nodes (pipeline.nodes this ++ [Some new_node]) this) h
  /\ h <> N.of_nat (length (pipeline.nodes this)).
Proof.
  unfold pipeline.erased. cbn. intros Hl. split.
  - by apply lookup_app_l_Some.
  - apply lookup_lt_Some in Hl. lia.
Qed.

Lemma erase_node_keeps_erased this h n_id that :
  pipeline.erased this h ->
  pipeline.erase_node n_id this = Returns tt that ->
  pipeline.erased that h.
Proof.
  unfold pipeline.erased, pipeline.erase_node. intros Hl.
  destruct (pipeline.is_valid this n_id); [|by intros [= <-]].
  destruct (pipeline.nodes this !! N.to_nat n_id) eqn:Hn; [|done].
  intros [= <-]. cbn.
  destruct (decide (N.to_nat n_id = N.to_nat h)) as [->|Hne].
  - apply list_lookup_insert_eq. by eapply lookup_lt_Some.
  - by rewrite list_lookup_insert_ne.
Qed.

(** A sequence whose [erase_node] calls stay inside the table runs to
    its end, and an erased slot is erased after it; no [create_node] of
    the sequence returns the handle of that slot. *)
Lemma host_keeps_erased cs : forall this h,
  pipeline.erased this h ->
  pipeline.erases_in_table (length (pipeline.nodes this)) cs = true ->
  exists ids that,
    pipeline.host cs this = Returns ids that
    /\ pipeline.erased that h
    /\ h ∉ ids.
Proof.
  induction cs as [|[new_node|n_id] cs IH]; intros this h Herased Hin.
  - exists [], this. repeat split; [done|]. apply not_elem_of_nil.
  - destruct (create_node_keeps_erased this h new_node Herased) as [Herased' Hfresh].
    destruct (IH _ h Herased') as (ids & that & Hrun & Hthat & Hids).
    { cbn in *. by rewrite length_app, Nat.add_1_r. }
    exists (N.of_nat (length (pipeline.nodes this)) :: ids), that.
    split; [|split; [done|]].
    + cbn [pipeline.host]. unfold bind at 1. rewrite create_node_returns.
      unfold bind at 1. by rewrite Hrun.
    + by apply not_elem_of_cons.
  - cbn in Hin. apply andb_true_iff in Hin as [Hn_id Hin].
    assert (exists this1, pipeline.erase_node n_id this = Returns tt this1
              /\ length (pipeline.nodes this1) = length (pipeline.nodes this))
      as (this1 & Herase & Hlen).
    { apply orb_true_iff in Hn_id as [Hmax|Hlt].
      - apply N.eqb_eq in Hmax as ->. exists this. split; [|done].
        apply (erase_node_invalid this).
      - apply N.ltb_lt in Hlt.
        destruct (decide (n_id = pipeline.numeric_limits_max)) as [->|Hne].
        { exists this. split; [|done]. apply (erase_node_invalid this). }
        destruct (lookup_lt_is_Some_2 (pipeline.nodes this) (N.to_nat n_id)) as [owned Howned];
          [lia|].
        eexists. split; [by eapply erase_node_in_table|].
        cbn. apply length_insert. }
    destruct (IH this1 h) as (ids & that & Hrun & Hthat & Hids).
    { by eapply erase_node_keeps_erased. }
    { by rewrite Hlen. }
    exists ids, that. split; [|done].
    cbn [pipeline.host]. unfold bind at 1. by rewrite Herase.
Qed.

(** A sequence with an [erase_node] of a handle past the end of the
    table has no defined behaviour. *)
Lemma host_outside_undefined cs : forall this,
  pipeline.erases_in_table (length (pipeline.nodes this)) cs = false ->
  pipeline.host cs this = Undefined.
Proof.
  induction cs as [|[new_node|n_id] cs IH]; intros this Hout; [done|..].
  - cbn [pipeline.host]. unfold bind at 1. rewrite create_node_returns.
    unfold bind at 1. rewrite IH; [done|].
    cbn in *. by rewrite length_app, Nat.add_1_r.
  - cbn [pipeline.host]. unfold bind at 1.
    cbn in Hout. apply andb_false_iff in Hout as [Hn_id|Hout].
    + apply orb_false_iff in Hn_id as [Hmax%N.eqb_neq Hlt%N.ltb_ge].
      rewrite erase_node_outside; [done..|lia].
    + destruct (pipeline.erase_node n_id this) as [[] this1|e this1|] eqn:Herase;
        [|by apply erase_node_never_throws in Herase|done].
      apply IH. by apply erase_node_frame in Herase as (_ & _ & -> & _).
Qed.

End host_facts.

(** ** connect *)

Section connect_facts.

Context {Nd : Type} `{!node.t Nd}.

Implicit Types (this that : pipeline.t Nd) (src dst : pipeline.node_id) (slot : Z).

(** With two live nodes [connect] is the destination's own [connect] and
    nothing more: the pipeline adds no check of its own. *)
Lemma connect_live this src dst slot src_obj dst_obj :
  pipeline.get_node src this = Returns (Some src_obj) this ->
  pipeline.get_node dst this = Returns (Some dst_obj) this ->
  pipeline.connect src dst slot this
  = pipeline.on_node dst dst_obj (node.connect (pipeline.nodes this) src slot) this.
Proof.
  intros Hsrc Hdst. unfold pipeline.connect, bind. by rewrite Hsrc, Hdst.
Qed.

(** Where both lookups return and one of them returns [nullptr],
    [connect] throws [invalid_node_id] and has changed nothing. *)
Lemma connect_not_live this src dst slot src_node dst_node :
  pipeline.get_node src this = Returns src_node this ->
  pipeline.get_node dst this = Returns dst_node this ->
  src_node = None \/ dst_node = None ->
  pipeline.connect src dst slot this
  = Throws {| kind := pipeline_error_kind.invalid_node_id |} this.
Proof.
  intros Hsrc Hdst Hnone. unfold pipeline.connect, bind. rewrite Hsrc, Hdst.
  destruct Hnone as [-> | ->]; [done|]. by destruct src_node.
Qed.

Lemma connect_src_outside this src dst slot :
  src <> pipeline.numeric_limits_max ->
  length (pipeline.nodes this) <= N.to_nat src ->
  pipeline.connect src dst slot this = Undefined.
Proof.
  intros Hsrc Hlen. unfold pipeline.connect, bind.
  by rewrite get_node_outside.
Qed.

Lemma connect_dst_outside this src dst slot src_node :
  pipeline.get_node src this = Returns src_node this ->
  dst <> pipeline.numeric_limits_max ->
  length (pipeline.nodes this) <= N.to_nat dst ->
  pipeline.connect src dst slot this = Undefined.
Proof.
  intros Hsrc Hdst Hlen. unfold pipeline.connect, bind.
  by rewrite Hsrc, get_node_outside.
Qed.

(** The handle of an erased node and the invalid handle make [connect]
    throw [invalid_node_id], on either side, when the other handle names
    a slot of the table or is the invalid one. *)
Lemma connect_stale_src this src dst slot dst_node :
  src = pipeline.invalid_node_id this \/ pipeline.erased this src ->
  pipeline.get_node dst this = Returns dst_node this ->
  pipeline.connect src dst slot this
  = Throws {| kind := pipeline_error_kind.invalid_node_id |} this.
Proof.
  intros Hsrc Hdst. eapply connect_not_live; [|done|by left].
  destruct Hsrc as [-> | Herased];
    [apply get_node_invalid | by apply get_node_erased].
Qed.

Lemma connect_stale_dst this src dst slot src_node :
  pipeline.get_node src this = Returns src_node this ->
  dst = pipeline.invalid_node_id this \/ pipeline.erased this dst ->
  pipeline.connect src dst slot this
  = Throws {| kind := pipeline_error_kind.invalid_node_id |} this.
Proof.
  intros Hsrc Hdst. eapply connect_not_live; [done| |by right].
  destruct Hdst as [-> | Herased];
    [apply get_node_invalid | by apply get_node_erased].
Qed.

(** An exception that leaves [connect] is [invalid_node_id] from the
    null test, thrown before anything has changed, or it comes out of
    the destination's own [connect]: the pipeline raises no other error. *)
Lemma connect_throws_origin this src dst slot e that :
  pipeline.connect src dst slot this = Throws e that ->
  (e = {| kind := pipeline_error_kind.invalid_node_id |} /\ that = this)
  \/ exists dst_obj dst_obj',
       pipeline.nodes this !! N.to_nat dst = Some (Some dst_obj)
       /\ node.connect (pipeline.nodes this) src slot dst_obj = Throws e dst_obj'.
Proof.
  unfold pipeline.connect, bind.
  destruct (pipeline.get_node src this) as [src_node this1|e1 this1|] eqn:Hsrc;
    [|by apply get_node_never_throws in Hsrc|done].
  apply get_node_reads_only in Hsrc as Hthis1. subst this1.
  destruct (pipeline.get_node dst this) as [dst_node this2|e2 this2|] eqn:Hdst;
    [|by apply get_node_never_throws in Hdst|done].
  apply get_node_reads_only in Hdst as Hthis2. subst this2.
  destruct src_node as [src_obj|], dst_node as [dst_obj|];
    try (unfold throw; intros [= <- <-]; by left).
  unfold pipeline.on_node.
  destruct (node.connect (pipeline.nodes this) src slot dst_obj)
    as [[] obj'|e' obj'|] eqn:Hconnect; [done| |done].
  intros [= <- <-]. right. exists dst_obj, obj'. split; [|done].
  unfold pipeline.get_node in Hdst.
  destruct (pipeline.is_valid this dst); [|done].
  destruct (pipeline.nodes this !! N.to_nat dst) as [owned|]; [|done].
  by injection Hdst as ->.
Qed.

(** However [connect] ends, it leaves the connection list as it was, and
    every slot of the table but the destination's. *)
Lemma connect_frame this src dst slot that :
  (pipeline.connect src dst slot this = Returns tt that
   \/ exists e, pipeline.connect src dst slot this = Throws e that) ->
  pipeline.connections that = pipeline.connections this
  /\ pipeline.node_ids that = pipeline.node_ids this
  /\ forall i, i <> N.to_nat dst ->
       pipeline.nodes that !! i = pipeline.nodes this !! i.
Proof.
  unfold pipeline.connect, bind.
  destruct (pipeline.get_node src this) as [src_node this1|e this1|] eqn:Hsrc.
  2: { by apply get_node_never_throws in Hsrc. }
  2: { by intros [?|[? ?]]. }
  apply get_node_reads_only in Hsrc as Hthis1. subst this1.
  destruct (pipeline.get_node dst this) as [dst_node this2|e this2|] eqn:Hdst.
  2: { by apply get_node_never_throws in Hdst. }
  2: { by intros [?|[? ?]]. }
  apply get_node_reads_only in Hdst as Hthis2. subst this2.
  destruct src_node as [src_obj|], dst_node as [dst_obj|];
    try (unfold throw; intros [[=]|[e [= _ <-]]]; done).
  unfold pipeline.on_node.
  destruct (node.connect (pipeline.nodes this) src slot dst_obj) as [[] obj'|e' obj'|];
    intros [Heq|[e Heq]]; simplify_eq; cbn;
    (split; [done|split; [done|]]; intros i Hi; by apply list_lookup_insert_ne).
Qed.

End connect_facts.

(** ** run *)

Section run_facts.

Context {Nd : Type}.

Variable step : call (pipeline.t Nd) bool.

Implicit Types (this that : pipeline.t Nd).

(** If the first [k] calls of [step] report that the graph is not
    complete and the next one reports completion, [run] returns, and
    leaves the pipeline as that last call of [step] left it. *)
Lemma run_returns k : forall fuel this this1 that,
  pipeline.steps step k this this1 ->
  step this1 = Returns true that ->
  k < fuel ->
  pipeline.run step fuel this = Some (Returns tt that).
Proof.
  induction k as [|k IH]; intros fuel this this1 that Hsteps Hlast Hfuel;
    (destruct fuel as [|fuel]; [lia|]); inversion Hsteps; subst; cbn.
  - by rewrite Hlast.
  - rewrite H0. eapply IH; [done..|lia].
Qed.

(** [run] returns only after a call of [step] that reports completion,
    and every call before it has reported that the graph is not complete. *)
Lemma run_returned fuel : forall this that,
  pipeline.run step fuel this = Some (Returns tt that) ->
  exists k this1,
    k < fuel /\ pipeline.steps step k this this1 /\ step this1 = Returns true that.
Proof.
  induction fuel as [|fuel IH]; intros this that; cbn; [done|].
  destruct (step this) as [[] this'|e this'|] eqn:Hstep; try done.
  - intros [= <-]. exists 0, this. split; [lia|]. split; [constructor|done].
  - intros (k & this1 & Hk & Hsteps & Hlast)%IH.
    exists (S k), this1. split; [lia|]. split; [|done].
    by econstructor.
Qed.

(** As long as [step] reports that the graph is not complete, [run] goes
    on. *)
Lemma run_goes_on k : forall this this1,
  pipeline.steps step k this this1 ->
  forall fuel, fuel <= k -> pipeline.run step fuel this = None.
Proof.
  induction k as [|k IH]; intros this this1 Hsteps fuel Hfuel.
  - by replace fuel with 0 by lia.
  - destruct fuel as [|fuel]; [done|]. inversion Hsteps; subst. cbn.
    rewrite H0. eapply IH; [done|lia].
Qed.

End run_facts.

(** * The claims *)

(** ** Handles *)

(** C10: [make_node_id] and [is_valid] depend on the handle value alone
    and not on the pipeline they are called on: [make_node_id] returns
    its argument, and [is_valid] answers true for every handle other than
    [numeric_limits<size_t>::max()], whatever the node table holds: also
    for a handle [create_node] has never returned and for the handle of
    an erased node. *)
Theorem handle_functions_pure {Nd : Type} (this that : pipeline.t Nd) (v h : N) :
  pipeline.make_node_id this v = v
  /\ pipeline.make_node_id this v = pipeline.make_node_id that v
  /\ pipeline.is_valid this h = pipeline.is_valid that h
  /\ (h <> pipeline.numeric_limits_max -> pipeline.is_valid this h = true).
Proof.
  repeat split. apply is_valid_true.
Qed.

Lemma handle_functions_pure_witness :
  pipeline.is_valid one_erased 0%N = true /\ pipeline.is_valid fresh 7%N = true.
Proof.
  split.
  - apply (handle_functions_pure one_erased fresh 0%N 0%N). discriminate.
  - apply (handle_functions_pure fresh fresh 0%N 7%N). discriminate.
Defined.

(** C5, as stated, fails: after [create_node] and [erase_node] of handle
    0, the handle refers to an erased node and [is_valid] still answers
    true. *)
Lemma is_valid_of_erased_handle :
  ~ (pipeline.is_valid one_erased 0%N = false
     <-> 0%N = pipeline.invalid_node_id one_erased \/ pipeline.erased one_erased 0%N).
Proof.
  intros [_ Hfalse].
  assert (pipeline.is_valid one_erased 0%N = false) as Hvalid.
  { apply Hfalse. right. reflexivity. }
  discriminate Hvalid.
Qed.

(** C5, amended: [is_valid h] is false if and only if [h] is the invalid
    handle [invalid_node_id()], and erasing a node does not change it;
    [get_node] returns no node for the invalid handle and for the handle
    of an erased node. *)
Theorem is_valid_false_only_for_invalid {Nd : Type} (this : pipeline.t Nd) (h : N) :
  (pipeline.is_valid this h = false <-> h = pipeline.invalid_node_id this)
  /\ (h = pipeline.invalid_node_id this \/ pipeline.erased this h ->
      pipeline.get_node h this = Returns None this).
Proof.
  split; [apply is_valid_false|].
  intros [-> | Herased].
  - apply get_node_invalid.
  - by apply get_node_erased.
Qed.

Lemma is_valid_false_only_for_invalid_witness :
  pipeline.get_node 0%N one_erased = Returns None one_erased.
Proof.
  apply (proj2 (is_valid_false_only_for_invalid one_erased 0%N)).
  right. reflexivity.
Defined.

(** C6: [get_node] is not total.  On a pipeline without nodes, handle 0
    passes [is_valid] and [nodes[0]] indexes an empty vector: the call
    has no defined behaviour, where the claim has it return no node. *)
Theorem get_node_outside_table :
  pipeline.is_valid fresh 0%N = true
  /\ pipeline.nodes fresh !! N.to_nat 0%N = None
  /\ pipeline.get_node 0%N fresh = Undefined.
Proof. done. Qed.

(** ** erase_node *)

(** C8: [erase_node] of a handle that names no slot.  On a pipeline
    without nodes, handle 0 passes [is_valid] and [nodes[0].reset()]
    indexes an empty vector: the call has no defined behaviour, where the
    claim has it change nothing. *)
Theorem erase_node_outside_table :
  pipeline.is_valid fresh 0%N = true
  /\ pipeline.nodes fresh !! N.to_nat 0%N = None
  /\ pipeline.erase_node 0%N fresh = Undefined.
Proof. done. Qed.

(** C7: once [erase_node] has erased the live node of a valid handle
    [h], then after every further sequence of [create_node] and
    [erase_node] calls the slot of [h] is still empty, no [create_node]
    of the sequence has returned [h], and [get_node h] returns no node.
    The sequence runs to its end whenever each of its [erase_node] calls
    is given the invalid handle or a handle inside the table. *)
Theorem erased_handle_never_reused {Nd : Type} `{!node.t Nd}
    (this : pipeline.t Nd) (h : pipeline.node_id) (n : Nd)
    (cs : list (pipeline.table_call Nd)) :
  h <> pipeline.numeric_limits_max ->
  pipeline.nodes this !! N.to_nat h = Some (Some n) ->
  (pipeline.erases_in_table (length (pipeline.nodes this)) cs = true ->
   exists ids that,
     pipeline.host (pipeline.call_erase h :: cs) this = Returns ids that)
  /\ (forall ids that,
        pipeline.host (pipeline.call_erase h :: cs) this = Returns ids that ->
        pipeline.erased that h
        /\ (h ∉ ids)
        /\ pipeline.get_node h that = Returns None that).
Proof.
  intros Hh Hlive.
  destruct (erase_node_live_erases this h n Hh Hlive) as (this1 & Herase & Herased).
  assert (length (pipeline.nodes this1) = length (pipeline.nodes this)) as Hlen.
  { by apply erase_node_frame in Herase as (_ & _ & -> & _). }
  assert (pipeline.host (pipeline.call_erase h :: cs) this = pipeline.host cs this1)
    as Hhost.
  { cbn [pipeline.host]. unfold bind at 1. by rewrite Herase. }
  rewrite Hhost. split.
  - intros Hin. rewrite <- Hlen in Hin.
    destruct (host_keeps_erased cs this1 h Herased Hin) as (ids & that & Hrun & _).
    by exists ids, that.
  - intros ids that Hrun.
    destruct (pipeline.erases_in_table (length (pipeline.nodes this1)) cs) eqn:Hin.
    + destruct (host_keeps_erased cs this1 h Herased Hin)
        as (ids' & that' & Hrun' & Hthat & Hids).
      rewrite Hrun in Hrun'. injection Hrun' as <- <-.
      split; [done|]. split; [done|]. by apply get_node_erased.
    + rewrite (host_outside_undefined cs this1 Hin) in Hrun. done.
Qed.

Lemma erased_handle_never_reused_witness :
  exists ids that,
    pipeline.host
      [pipeline.call_erase 0%N; pipeline.call_create int_source_A2;
       pipeline.call_erase 0%N; pipeline.call_create int_sink_B] one_source
    = Returns ids that
    /\ pipeline.erased that 0%N
    /\ (0%N ∉ ids)
    /\ pipeline.get_node 0%N that = Returns None that.
Proof.
  destruct (erased_handle_never_reused one_source 0%N int_source_A
              [pipeline.call_create int_source_A2; pipeline.call_erase 0%N;
               pipeline.call_create int_sink_B]) as [Hruns Hafter].
  - discriminate.
  - reflexivity.
  - destruct (Hruns eq_refl) as (ids & that & Hrun).
    exists ids, that. split; [exact Hrun|]. exact (Hafter ids that Hrun).
Defined.

(** ** connect *)

(** C1: [Source<int>] A behind handle 0 and [Sink<string>] B behind
    handle 1 are both live and the output type of A differs from the
    type of slot 0 of B.  [connect(0, 1, 0)] compares no types: it calls
    the destination's [connect] and returns, with slot 0 of B bound to A,
    where the claim has it fail with [connection_type_mismatch]. *)
Theorem connect_type_mismatch_returns :
  pipeline.get_node 0%N int_to_string = Returns (Some int_source_A) int_to_string
  /\ pipeline.get_node 1%N int_to_string = Returns (Some string_sink_B) int_to_string
  /\ stub.output_type int_source_A <> stub.input_type string_sink_B !! 0
  /\ pipeline.connect 0%N 1%N 0 int_to_string
     = Returns tt
         (pipeline.with_nodes
            [Some int_source_A; Some (bound_sink stub.string_type 0%N)] int_to_string).
Proof. done. Qed.

(** C2: slot 0 of the sink B behind handle 2 has been bound to the source
    A by [connect(0, 2, 0)].  A second [connect(1, 2, 0)] on the used
    slot is not refused: it returns and has bound the slot to the source
    A2, where the claim has every binding left as it was. *)
Theorem connect_used_slot_rebinds :
  pipeline.connect 0%N 2%N 0 three_nodes = Returns tt (two_sources 0%N)
  /\ pipeline.connect 1%N 2%N 0 (two_sources 0%N) = Returns tt (two_sources 1%N)
  /\ pipeline.nodes (two_sources 1%N) <> pipeline.nodes (two_sources 0%N).
Proof. done. Qed.

(** C3: [Source<int>] A behind handle 0 and [Sink<int>] B behind handle 1
    meet all four checks for slot 0.  [connect(0, 1, 0)] calls the
    destination's [connect], which binds slot 0 of B to A, and returns
    with the connection list still empty, where the claim has the record
    (0, 1, 0) appended. *)
Theorem connect_appends_no_record :
  exists that,
    pipeline.connect 0%N 1%N 0 int_to_int = Returns tt that
    /\ pipeline.nodes that = [Some int_source_A; Some (bound_sink stub.int_type 0%N)]
    /\ pipeline.connections that = []
    /\ pipeline.connections that
       <> pipeline.connections int_to_int
          ++ [{| pipeline.src := 0%N; pipeline.dst := 1%N; pipeline.slot := 0 |}].
Proof. eexists. done. Qed.

(** C4: on a pipeline whose only node is behind handle 0, handle 1
    resolves to no live node.  [connect] with that handle as source or
    as destination indexes the node table past its end and has no
    defined behaviour, where the claim has it fail with
    [invalid_node_id]. *)
Theorem connect_outside_table :
  pipeline.nodes one_source !! N.to_nat 1%N = None
  /\ pipeline.connect 0%N 1%N 0 one_source = Undefined
  /\ pipeline.connect 1%N 0%N 0 one_source = Undefined.
Proof. done. Qed.

(** * Further properties of the node table *)

Lemma get_node_returns_inv {Nd : Type} (this : pipeline.t Nd) h r that :
  pipeline.get_node h this = Returns r that ->
  that = this
  /\ ((h = pipeline.numeric_limits_max /\ r = None)
      \/ (h <> pipeline.numeric_limits_max
          /\ pipeline.nodes this !! N.to_nat h = Some r)).
Proof.
  unfold pipeline.get_node.
  destruct (pipeline.is_valid this h) eqn:Hvalid.
  - apply is_valid_true in Hvalid.
    destruct (pipeline.nodes this !! N.to_nat h); [|done].
    intros [= <- <-]. split; [done|]. by right.
  - apply is_valid_false in Hvalid.
    intros [= <- <-]. split; [done|]. by left.
Qed.

Lemma erase_node_returns_inv {Nd : Type} (this : pipeline.t Nd) h that :
  pipeline.erase_node h this = Returns tt that ->
  (h = pipeline.numeric_limits_max /\ that = this)
  \/ (h <> pipeline.numeric_limits_max
      /\ N.to_nat h < length (pipeline.nodes this)
      /\ that = pipeline.with_nodes (<[N.to_nat h := None]> (pipeline.nodes this)) this).
Proof.
  unfold pipeline.erase_node.
  destruct (pipeline.is_valid this h) eqn:Hvalid.
  - apply is_valid_true in Hvalid.
    destruct (pipeline.nodes this !! N.to_nat h) eqn:Hl; [|done].
    intros [= <-]. right. split; [done|]. split; [|done].
    by eapply lookup_lt_Some.
  - apply is_valid_false in Hvalid. intros [= <-]. by left.
Qed.

Lemma erase_node_undefined_inv {Nd : Type} (this : pipeline.t Nd) h :
  pipeline.erase_node h this = Undefined ->
  h <> pipeline.numeric_limits_max /\ length (pipeline.nodes this) <= N.to_nat h.
Proof.
  unfold pipeline.erase_node.
  destruct (pipeline.is_valid this h) eqn:Hvalid; [|done].
  apply is_valid_true in Hvalid.
  destruct (pipeline.nodes this !! N.to_nat h) eqn:Hl; [done|].
  intros _. split; [done|]. by apply lookup_ge_None.
Qed.

(** X1: [create_node] hands out the position of the new slot.  While the
    table has fewer slots than [numeric_limits<size_t>::max()], the
    handle is valid, [get_node] on it returns the node just created, the
    connection list is untouched and every handle that resolved before
    resolves to the same result. *)
Theorem create_node_resolves {Nd : Type} (this : pipeline.t Nd) (new_node : Nd) :
  (N.of_nat (length (pipeline.nodes this)) < pipeline.numeric_limits_max)%N ->
  exists id that,
    pipeline.create_node new_node this = Returns id that
    /\ id = N.of_nat (length (pipeline.nodes this))
    /\ pipeline.is_valid that id = true
    /\ pipeline.get_node id that = Returns (Some new_node) that
    /\ pipeline.connections that = pipeline.connections this
    /\ forall h r,
         pipeline.get_node h this = Returns r this ->
         pipeline.get_node h that = Returns r that.
Proof.
  intros Hsize. rewrite create_node_returns.
  eexists _, _. split; [reflexivity|]. split; [reflexivity|].
  assert (N.of_nat (length (pipeline.nodes this)) <> pipeline.numeric_limits_max)
    as Hne by lia.
  split; [by apply is_valid_true|]. split; [|split; [done|]].
  - apply get_node_in_table; [done|]. cbn [pipeline.with_nodes pipeline.nodes].
    rewrite Nat2N.id. by apply list_lookup_middle.
  - intros h r [_ [[-> ->]|[Hh Hl]]]%get_node_returns_inv.
    + apply (get_node_invalid (pipeline.with_nodes _ this)).
    + apply get_node_in_table; [done|]. cbn. by apply lookup_app_l_Some.
Qed.

Lemma create_node_resolves_witness :
  exists id (that : pipeline.t stub.t),
    pipeline.create_node int_sink_B one_source = Returns id that
    /\ id = 1%N
    /\ pipeline.is_valid that id = true
    /\ pipeline.get_node id that = Returns (Some int_sink_B) that
    /\ pipeline.connections that = pipeline.connections one_source
    /\ forall h r,
         pipeline.get_node h one_source = Returns r one_source ->
         pipeline.get_node h that = Returns r that.
Proof.
  apply (create_node_resolves one_source int_sink_B). reflexivity.
Defined.

(** X2: [erase_node] on a valid handle inside the table returns; after
    it [get_node] on that handle returns no node, the table has as many
    slots as before, the connection list is untouched and every other
    handle that resolved before resolves to the same result. *)
Theorem erase_node_then_get_node {Nd : Type} (this : pipeline.t Nd) h :
  h <> pipeline.numeric_limits_max ->
  N.to_nat h < length (pipeline.nodes this) ->
  exists that,
    pipeline.erase_node h this = Returns tt that
    /\ pipeline.get_node h that = Returns None that
    /\ length (pipeline.nodes that) = length (pipeline.nodes this)
    /\ pipeline.connections that = pipeline.connections this
    /\ forall h' r,
         h' <> h ->
         pipeline.get_node h' this = Returns r this ->
         pipeline.get_node h' that = Returns r that.
Proof.
  intros Hh Hlt.
  destruct (lookup_lt_is_Some_2 _ _ Hlt) as [owned Howned].
  eexists. split; [by eapply erase_node_in_table|].
  split; [|split; [apply length_insert|split; [done|]]].
  - apply get_node_erased. unfold pipeline.erased. cbn.
    by apply list_lookup_insert_eq.
  - intros h' r Hne [_ [[-> ->]|[Hh' Hl]]]%get_node_returns_inv.
    + apply (get_node_invalid (pipeline.with_nodes _ this)).
    + apply get_node_in_table; [done|]. cbn.
      rewrite list_lookup_insert_ne; [done|]. lia.
Qed.

Lemma erase_node_then_get_node_witness :
  exists that : pipeline.t stub.t,
    pipeline.erase_node 0%N int_to_int = Returns tt that
    /\ pipeline.get_node 0%N that = Returns None that
    /\ length (pipeline.nodes that) = length (pipeline.nodes int_to_int)
    /\ pipeline.connections that = pipeline.connections int_to_int
    /\ forall h' r,
         h' <> 0%N ->
         pipeline.get_node h' int_to_int = Returns r int_to_int ->
         pipeline.get_node h' that = Returns r that.
Proof.
  apply (erase_node_then_get_node int_to_int 0%N).
  - discriminate.
  - cbn. lia.
Defined.

(** X3: [erase_node] is idempotent: where it returns, a second call with
    the same handle returns as well and changes nothing. *)
Theorem erase_node_idempotent {Nd : Type} (this : pipeline.t Nd) h that :
  pipeline.erase_node h this = Returns tt that ->
  pipeline.erase_node h that = Returns tt that.
Proof.
  intros [[-> ->]|(Hh & Hlt & ->)]%erase_node_returns_inv.
  - apply erase_node_invalid.
  - apply erase_node_erased. unfold pipeline.erased. cbn.
    by apply list_lookup_insert_eq.
Qed.

Lemma erase_node_idempotent_witness :
  pipeline.erase_node 1%N
    (pipeline.with_nodes [Some int_source_A; None] int_to_int)
  = Returns tt (pipeline.with_nodes [Some int_source_A; None] int_to_int).
Proof.
  apply (erase_node_idempotent int_to_int 1%N). reflexivity.
Defined.

(** X4: two [erase_node] calls commute: where erasing [h1] and then [h2]
    returns, erasing [h2] and then [h1] returns with the same pipeline. *)
Theorem erase_node_commute {Nd : Type} (this : pipeline.t Nd) h1 h2 this1 this12 :
  pipeline.erase_node h1 this = Returns tt this1 ->
  pipeline.erase_node h2 this1 = Returns tt this12 ->
  exists this2,
    pipeline.erase_node h2 this = Returns tt this2
    /\ pipeline.erase_node h1 this2 = Returns tt this12.
Proof.
  intros [[-> ->]|(Hh1 & Hlt1 & ->)]%erase_node_returns_inv Hsecond.
  - exists this12. split; [done|].
    apply erase_node_returns_inv in Hsecond as [[_ ->]|(_ & _ & ->)];
      apply erase_node_invalid.
  - apply erase_node_returns_inv in Hsecond as [[-> ->]|(Hh2 & Hlt2 & ->)].
    + exists this. split; [apply erase_node_invalid|].
      destruct (lookup_lt_is_Some_2 _ _ Hlt1) as [owned Howned].
      by eapply erase_node_in_table.
    + cbn in Hlt2. rewrite length_insert in Hlt2.
      destruct (lookup_lt_is_Some_2 _ _ Hlt2) as [owned2 Howned2].
      eexists. split; [by eapply erase_node_in_table|].
      assert (N.to_nat h1 < length (<[N.to_nat h2 := None]> (pipeline.nodes this)))
        as Hlt1' by by rewrite length_insert.
      destruct (lookup_lt_is_Some_2 _ _ Hlt1') as [owned1 Howned1].
      rewrite (erase_node_in_table (pipeline.with_nodes _ this) h1 owned1 Hh1 Howned1).
      cbn. unfold pipeline.with_nodes. cbn. do 2 f_equal.
      destruct (decide (N.to_nat h1 = N.to_nat h2)) as [->|Hne]; [done|].
      by apply list_insert_insert_ne.
Qed.

Lemma erase_node_commute_witness :
  exists this2 : pipeline.t stub.t,
    pipeline.erase_node 1%N three_nodes = Returns tt this2
    /\ pipeline.erase_node 0%N this2
       = Returns tt (pipeline.with_nodes [None; None; Some int_sink_B] three_nodes).
Proof.
  apply (erase_node_commute three_nodes 0%N 1%N
           (pipeline.with_nodes [None; Some int_source_A2; Some int_sink_B] three_nodes));
    reflexivity.
Defined.

(** X5: [get_node] has no defined behaviour exactly for the handles that
    are not the invalid one and lie at or past the end of the table; for
    every other handle it returns, and it neither changes the pipeline
    nor throws. *)
Theorem get_node_defined_iff {Nd : Type} (this : pipeline.t Nd) h :
  (pipeline.get_node h this = Undefined
   <-> h <> pipeline.numeric_limits_max
       /\ length (pipeline.nodes this) <= N.to_nat h)
  /\ (forall r that, pipeline.get_node h this = Returns r that -> that = this)
  /\ (forall e that, pipeline.get_node h this <> Throws e that).
Proof.
  split; [|split; [apply get_node_reads_only|apply get_node_never_throws]].
  split.
  - unfold pipeline.get_node.
    destruct (pipeline.is_valid this h) eqn:Hvalid; [|done].
    apply is_valid_true in Hvalid.
    destruct (pipeline.nodes this !! N.to_nat h) eqn:Hl; [done|].
    intros _. split; [done|]. by apply lookup_ge_None.
  - intros [Hh Hlen]. by apply get_node_outside.
Qed.

Lemma get_node_defined_iff_witness :
  pipeline.get_node 3%N one_source = Undefined.
Proof.
  apply (proj2 (proj1 (get_node_defined_iff one_source 3%N))).
  split; [discriminate|cbn; lia].
Defined.

(** X6: [erase_node] has no defined behaviour exactly for the handles
    that are not the invalid one and lie at or past the end of the
    table; for every other handle it returns, and it never throws. *)
Theorem erase_node_defined_iff {Nd : Type} (this : pipeline.t Nd) h :
  (pipeline.erase_node h this = Undefined
   <-> h <> pipeline.numeric_limits_max
       /\ length (pipeline.nodes this) <= N.to_nat h)
  /\ (forall e that, pipeline.erase_node h this <> Throws e that).
Proof.
  split; [|apply erase_node_never_throws].
  split; [apply erase_node_undefined_inv|].
  intros [Hh Hlen]. by apply erase_node_outside.
Qed.

Lemma erase_node_defined_iff_witness :
  pipeline.erase_node 3%N one_source = Undefined.
Proof.
  apply (proj2 (proj1 (erase_node_defined_iff one_source 3%N))).
  split; [discriminate|cbn; lia].
Defined.

(** * Further properties of sequences of table calls *)

Lemma host_create_step {Nd : Type} (this : pipeline.t Nd) new_node cs :
  pipeline.host (pipeline.call_create new_node :: cs) this
  = match pipeline.host cs
            (pipeline.with_nodes (pipeline.nodes this ++ [Some new_node]) this) with
    | Returns ids that => Returns (N.of_nat (length (pipeline.nodes this)) :: ids) that
    | Throws e that => Throws e that
    | Undefined => Undefined
    end.
Proof. reflexivity. Qed.

Lemma host_erase_step {Nd : Type} (this : pipeline.t Nd) n_id cs :
  pipeline.host (pipeline.call_erase n_id :: cs) this
  = match pipeline.erase_node n_id this with
    | Returns _ this1 => pipeline.host cs this1
    | Throws e this1 => Throws e this1
    | Undefined => Undefined
    end.
Proof. reflexivity. Qed.


(** X7: over any sequence of [create_node] and [erase_node] calls that
    runs, the handles returned are the consecutive table positions from
    the size of the table at the start, so no handle is returned twice;
    the table grows by one slot for each [create_node] and never
    shrinks, and the connection list is untouched. *)
Theorem host_handles_are_positions {Nd : Type}
    (cs : list (pipeline.table_call Nd)) (this : pipeline.t Nd) ids that :
  pipeline.host cs this = Returns ids that ->
  ids = N.of_nat <$> seq (length (pipeline.nodes this)) (length (pipeline.created cs))
  /\ NoDup ids
  /\ length (pipeline.nodes that)
     = length (pipeline.nodes this) + length (pipeline.created cs)
  /\ pipeline.connections that = pipeline.connections this.
Proof.
  intros Hrun.
  assert (ids = N.of_nat <$> seq (length (pipeline.nodes this))
                               (length (pipeline.created cs))
          /\ length (pipeline.nodes that)
             = length (pipeline.nodes this) + length (pipeline.created cs)
          /\ pipeline.connections that = pipeline.connections this)
    as (-> & Hlen & Hconn).
  { revert this ids Hrun.
    induction cs as [|[new_node|n_id] cs IH]; intros this ids Hrun.
    - injection Hrun as <- <-. cbn. split; [done|]. split; [lia|done].
    - rewrite host_create_step in Hrun.
      destruct (pipeline.host cs _) as [ids' that'|e that'|] eqn:Hrest; [|done..].
      injection Hrun as <- <-.
      apply IH in Hrest as (-> & Hlen & Hconn).
      cbn in *. rewrite length_app, Nat.add_1_r in *.
      split; [done|]. split; [lia|done].
    - rewrite host_erase_step in Hrun.
      destruct (pipeline.erase_node n_id this) as [[] this1|e this1|] eqn:Herase;
        [|done..].
      apply erase_node_frame in Herase as (Hconn1 & _ & Hlen1 & _).
      apply IH in Hrun as (-> & Hlen & Hconn).
      cbn. rewrite <- Hlen1, <- Hconn1. done. }
  split; [done|]. split; [|done].
  apply NoDup_fmap_2; [|apply NoDup_seq].
  intros x y. apply Nat2N.inj.
Qed.

Lemma host_handles_are_positions_witness :
  [1%N; 2%N] = N.of_nat <$> seq 1 2
  /\ NoDup [1%N; 2%N]
  /\ 3 = 1 + 2
  /\ pipeline.connections
       (pipeline.with_nodes [None; Some int_source_A2; Some int_sink_B] one_source)
     = pipeline.connections one_source.
Proof.
  apply (host_handles_are_positions
           [pipeline.call_create int_source_A2; pipeline.call_erase 0%N;
            pipeline.call_create int_sink_B]
           one_source [1%N; 2%N]
           (pipeline.with_nodes [None; Some int_source_A2; Some int_sink_B] one_source)).
  reflexivity.
Defined.

(** X8: over any sequence of [create_node] and [erase_node] calls that
    runs, a slot never comes to hold another node: a slot of the table
    at the start holds what it held or nothing, and the slot of the
    [k]-th node created holds that node or nothing. *)
Theorem host_slot_keeps_its_node {Nd : Type}
    (cs : list (pipeline.table_call Nd)) (this : pipeline.t Nd) ids that :
  pipeline.host cs this = Returns ids that ->
  (forall i owned,
     pipeline.nodes this !! i = Some owned ->
     pipeline.nodes that !! i = Some owned \/ pipeline.nodes that !! i = Some None)
  /\ (forall k new_node,
        pipeline.created cs !! k = Some new_node ->
        pipeline.nodes that !! (length (pipeline.nodes this) + k) = Some (Some new_node)
        \/ pipeline.nodes that !! (length (pipeline.nodes this) + k) = Some None).
Proof.
  revert this ids.
  induction cs as [|[new_node|n_id] cs IH]; intros this ids Hrun.
  - injection Hrun as <- <-. split; [by left|done].
  - rewrite host_create_step in Hrun.
    destruct (pipeline.host cs _) as [ids' that'|e that'|] eqn:Hrest; [|done..].
    injection Hrun as <- <-.
    apply IH in Hrest as [Hold Hnew]. cbn in Hold, Hnew. split.
    + intros i owned Hi. apply Hold. by apply lookup_app_l_Some.
    + intros [|k] n Hk; cbn in Hk.
      * injection Hk as ->. rewrite Nat.add_0_r.
        apply Hold. by apply list_lookup_middle.
      * rewrite length_app, Nat.add_1_r in Hnew.
        replace (length (pipeline.nodes this) + S k)
          with (S (length (pipeline.nodes this)) + k) by lia.
        by apply Hnew.
  - rewrite host_erase_step in Hrun.
    destruct (pipeline.erase_node n_id this) as [[] this1|e this1|] eqn:Herase;
      [|done..].
    apply IH in Hrun as [Hold Hnew].
    apply erase_node_returns_inv in Herase as [[_ ->]|(_ & Hlt & ->)]; [done|].
    cbn in Hold, Hnew. rewrite length_insert in Hnew. split; [|done].
    intros i owned Hi.
    destruct (decide (N.to_nat n_id = i)) as [<-|Hne].
    + right.
      destruct (Hold (N.to_nat n_id) None) as [?|?]; [|done..].
      by apply list_lookup_insert_eq.
    + apply Hold. by rewrite list_lookup_insert_ne.
Qed.

Lemma host_slot_keeps_its_node_witness :
  pipeline.nodes (pipeline.with_nodes [None; Some int_source_A2; Some int_sink_B] one_source)
    !! (length (pipeline.nodes one_source) + 1)
  = Some (Some int_sink_B)
  \/ pipeline.nodes (pipeline.with_nodes [None; Some int_source_A2; Some int_sink_B] one_source)
       !! (length (pipeline.nodes one_source) + 1)
     = Some None.
Proof.
  apply (proj2 (host_slot_keeps_its_node
                  [pipeline.call_create int_source_A2; pipeline.call_erase 0%N;
                   pipeline.call_create int_sink_B]
                  one_source [1%N; 2%N]
                  (pipeline.with_nodes [None; Some int_source_A2; Some int_sink_B]
                     one_source)
                  eq_refl) 1 int_sink_B).
  reflexivity.
Defined.



(** * Further properties of connect *)

Lemma get_node_cases {Nd : Type} (this : pipeline.t Nd) h :
  (h = pipeline.numeric_limits_max /\ pipeline.get_node h this = Returns None this)
  \/ (h <> pipeline.numeric_limits_max
      /\ length (pipeline.nodes this) <= N.to_nat h
      /\ pipeline.get_node h this = Undefined)
  \/ (h <> pipeline.numeric_limits_max
      /\ exists owned,
           pipeline.nodes this !! N.to_nat h = Some owned
           /\ pipeline.get_node h this = Returns owned this).
Proof.
  destruct (decide (h = pipeline.numeric_limits_max)) as [->|Hne].
  { left. split; [done|]. apply (get_node_invalid this). }
  right. destruct (pipeline.nodes this !! N.to_nat h) as [owned|] eqn:Hl.
  - right. split; [done|]. exists owned. split; [done|]. by apply get_node_in_table.
  - left. apply lookup_ge_None in Hl. split; [done|]. split; [done|].
    by apply get_node_outside.
Qed.

Lemma get_node_returns_or_not {Nd : Type} (this : pipeline.t Nd) h :
  pipeline.get_node h this = Undefined
  \/ exists r,
       pipeline.get_node h this = Returns r this
       /\ forall n, r = Some n -> pipeline.nodes this !! N.to_nat h = Some (Some n).
Proof.
  destruct (get_node_cases this h)
    as [[_ Hget]|[(_ & _ & Hget)|(_ & owned & Hl & Hget)]].
  - right. by exists None.
  - by left.
  - right. exists owned. split; [done|]. by intros n ->.
Qed.

Lemma connect_unfold {Nd : Type} `{!node.t Nd} (this : pipeline.t Nd) src dst slot
    src_node dst_node :
  pipeline.get_node src this = Returns src_node this ->
  pipeline.get_node dst this = Returns dst_node this ->
  pipeline.connect src dst slot this
  = match src_node, dst_node with
    | Some _, Some dst_obj =>
        pipeline.on_node dst dst_obj (node.connect (pipeline.nodes this) src slot) this
    | _, _ => Throws {| kind := pipeline_error_kind.invalid_node_id |} this
    end.
Proof.
  intros Hsrc Hdst. unfold pipeline.connect, bind. rewrite Hsrc, Hdst.
  by destruct src_node, dst_node.
Qed.

(** X10: however [connect] ends, by returning or by throwing, it has
    left the connection list, the map of node ids, the size of the table
    and every slot but the destination's as they were, and no slot has
    become empty or stopped being empty. *)
Theorem connect_changes_only_destination {Nd : Type} `{!node.t Nd}
    (this : pipeline.t Nd) src dst slot that :
  (pipeline.connect src dst slot this = Returns tt that
   \/ exists e, pipeline.connect src dst slot this = Throws e that) ->
  pipeline.connections that = pipeline.connections this
  /\ pipeline.node_ids that = pipeline.node_ids this
  /\ length (pipeline.nodes that) = length (pipeline.nodes this)
  /\ (forall i, i <> N.to_nat dst ->
        pipeline.nodes that !! i = pipeline.nodes this !! i)
  /\ (forall h, pipeline.erased that h <-> pipeline.erased this h).
Proof.
  intros Hends.
  destruct (connect_frame this src dst slot that Hends) as (Hconn & Hids & Hframe).
  split; [done|]. split; [done|].
  enough (length (pipeline.nodes that) = length (pipeline.nodes this)
          /\ (pipeline.nodes that !! N.to_nat dst = Some None
              <-> pipeline.nodes this !! N.to_nat dst = Some None)) as [Hlen Hdst].
  { split; [done|]. split; [done|]. intros h. unfold pipeline.erased.
    destruct (decide (N.to_nat h = N.to_nat dst)) as [->|Hne]; [done|].
    by rewrite Hframe. }
  destruct (get_node_returns_or_not this src) as [Hsrc|(src_node & Hsrc & _)].
  { unfold pipeline.connect, bind in Hends. rewrite Hsrc in Hends.
    by destruct Hends as [?|[? ?]]. }
  destruct (get_node_returns_or_not this dst) as [Hdst|(dst_node & Hdst & Hl)].
  { unfold pipeline.connect, bind in Hends. rewrite Hsrc, Hdst in Hends.
    by destruct Hends as [?|[? ?]]. }
  rewrite (connect_unfold this _ _ _ _ _ Hsrc Hdst) in Hends.
  destruct src_node as [src_obj|], dst_node as [dst_obj|];
    try by destruct Hends as [?|[e [= _ <-]]].
  specialize (Hl dst_obj eq_refl).
  assert (N.to_nat dst < length (pipeline.nodes this)) as Hlt
    by by eapply lookup_lt_Some.
  unfold pipeline.on_node in Hends.
  destruct (node.connect (pipeline.nodes this) src slot dst_obj) as [[] obj'|e' obj'|];
    destruct Hends as [Heq|[e Heq]]; simplify_eq; cbn;
    rewrite length_insert, list_lookup_insert_eq by done; rewrite Hl; done.
Qed.

Lemma connect_changes_only_destination_witness :
  pipeline.connections (two_sources 0%N) = pipeline.connections three_nodes
  /\ pipeline.node_ids (two_sources 0%N) = pipeline.node_ids three_nodes
  /\ length (pipeline.nodes (two_sources 0%N)) = length (pipeline.nodes three_nodes)
  /\ (forall i, i <> N.to_nat 2%N ->
        pipeline.nodes (two_sources 0%N) !! i = pipeline.nodes three_nodes !! i)
  /\ (forall h, pipeline.erased (two_sources 0%N) h <-> pipeline.erased three_nodes h).
Proof.
  apply (connect_changes_only_destination three_nodes 0%N 2%N 0 (two_sources 0%N)).
  left. reflexivity.
Defined.

(** X11: the only error [connect] raises of its own is
    [invalid_node_id], before anything has changed, when a handle has
    resolved to no node.  Every other exception that leaves [connect]
    is the one thrown by the destination's own [connect], passed on
    unchanged, with the destination as that call left it. *)
Theorem connect_raises_only_invalid_node_id {Nd : Type} `{!node.t Nd}
    (this : pipeline.t Nd) src dst slot e that :
  pipeline.connect src dst slot this = Throws e that ->
  (e = {| kind := pipeline_error_kind.invalid_node_id |}
   /\ that = this
   /\ (pipeline.get_node src this = Returns None this
       \/ pipeline.get_node dst this = Returns None this))
  \/ exists dst_obj dst_obj',
       pipeline.nodes this !! N.to_nat dst = Some (Some dst_obj)
       /\ node.connect (pipeline.nodes this) src slot dst_obj = Throws e dst_obj'
       /\ that = pipeline.with_nodes
                   (<[N.to_nat dst := Some dst_obj']> (pipeline.nodes this)) this.
Proof.
  intros Hthrows.
  destruct (get_node_returns_or_not this src) as [Hsrc|(src_node & Hsrc & _)].
  { unfold pipeline.connect, bind in Hthrows. by rewrite Hsrc in Hthrows. }
  destruct (get_node_returns_or_not this dst) as [Hdst|(dst_node & Hdst & Hl)].
  { unfold pipeline.connect, bind in Hthrows. by rewrite Hsrc, Hdst in Hthrows. }
  rewrite (connect_unfold this _ _ _ _ _ Hsrc Hdst) in Hthrows.
  destruct src_node as [src_obj|], dst_node as [dst_obj|];
    try (injection Hthrows as <- <-; left; split; [done|]; split; [done|]; by auto).
  right. exists dst_obj. unfold pipeline.on_node in Hthrows.
  destruct (node.connect (pipeline.nodes this) src slot dst_obj) as [[] obj'|e' obj'|];
    [done| |done].
  injection Hthrows as <- <-. exists obj'. split; [by apply Hl|done].
Qed.

Lemma connect_raises_only_invalid_node_id_witness :
  ({| kind := pipeline_error_kind.no_such_slot |}
   = {| kind := pipeline_error_kind.invalid_node_id |}
   /\ int_to_int = int_to_int
   /\ (pipeline.get_node 1%N int_to_int = Returns None int_to_int
       \/ pipeline.get_node 0%N int_to_int = Returns None int_to_int))
  \/ exists dst_obj dst_obj',
       pipeline.nodes int_to_int !! N.to_nat 0%N = Some (Some dst_obj)
       /\ node.connect (pipeline.nodes int_to_int) 1%N 0 dst_obj
          = Throws {| kind := pipeline_error_kind.no_such_slot |} dst_obj'
       /\ int_to_int
          = pipeline.with_nodes
              (<[N.to_nat 0%N := Some dst_obj']> (pipeline.nodes int_to_int)) int_to_int.
Proof.
  apply (connect_raises_only_invalid_node_id int_to_int 1%N 0%N 0
           {| kind := pipeline_error_kind.no_such_slot |} int_to_int).
  reflexivity.
Defined.

(** X12: when each of the two handles is the invalid one or lies inside
    the table, and one of them is the invalid handle or the handle of an
    erased node, [connect] throws [invalid_node_id] and leaves the
    pipeline as it was. *)
Theorem connect_stale_handle_throws {Nd : Type} `{!node.t Nd}
    (this : pipeline.t Nd) src dst slot :
  src = pipeline.numeric_limits_max \/ N.to_nat src < length (pipeline.nodes this) ->
  dst = pipeline.numeric_limits_max \/ N.to_nat dst < length (pipeline.nodes this) ->
  src = pipeline.numeric_limits_max \/ pipeline.erased this src
  \/ dst = pipeline.numeric_limits_max \/ pipeline.erased this dst ->
  pipeline.connect src dst slot this
  = Throws {| kind := pipeline_error_kind.invalid_node_id |} this.
Proof.
  intros Hsrc Hdst Hstale.
  assert (forall h,
            h = pipeline.numeric_limits_max \/ N.to_nat h < length (pipeline.nodes this) ->
            exists r, pipeline.get_node h this = Returns r this) as Hresolves.
  { intros h [->|Hlt].
    - exists None. apply (get_node_invalid this).
    - destruct (get_node_cases this h)
        as [[_ Hget]|[(_ & Hlen & _)|(_ & owned & _ & Hget)]]; [by eexists|lia|by eexists]. }
  destruct (Hresolves src Hsrc) as [src_node Hsrc_node].
  destruct (Hresolves dst Hdst) as [dst_node Hdst_node].
  destruct Hstale as [->|[Herased|[->|Herased]]].
  - eapply connect_stale_src; [by left|done].
  - eapply connect_stale_src; [by right|done].
  - eapply connect_stale_dst; [done|by left].
  - eapply connect_stale_dst; [done|by right].
Qed.

Lemma connect_stale_handle_throws_witness :
  pipeline.connect 0%N 1%N 0
    (pipeline.with_nodes [None; Some int_sink_B] int_to_int)
  = Throws {| kind := pipeline_error_kind.invalid_node_id |}
      (pipeline.with_nodes [None; Some int_sink_B] int_to_int).
Proof.
  apply (connect_stale_handle_throws
           (pipeline.with_nodes [None; Some int_sink_B] int_to_int) 0%N 1%N 0).
  - right. cbn. lia.
  - right. cbn. lia.
  - right. left. reflexivity.
Defined.

(** X13: [erase_node] and then [connect]: once the node of a valid
    handle inside the table has been erased, [connect] with that handle
    as source or as destination throws [invalid_node_id] and changes
    nothing, whatever the other handle is among the invalid one and the
    handles inside the table. *)
Theorem connect_after_erase_node_throws {Nd : Type} `{!node.t Nd}
    (this : pipeline.t Nd) h other slot :
  h <> pipeline.numeric_limits_max ->
  N.to_nat h < length (pipeline.nodes this) ->
  other = pipeline.numeric_limits_max \/ N.to_nat other < length (pipeline.nodes this) ->
  exists that,
    pipeline.erase_node h this = Returns tt that
    /\ pipeline.connect h other slot that
       = Throws {| kind := pipeline_error_kind.invalid_node_id |} that
    /\ pipeline.connect other h slot that
       = Throws {| kind := pipeline_error_kind.invalid_node_id |} that.
Proof.
  intros Hh Hlt Hother.
  destruct (lookup_lt_is_Some_2 _ _ Hlt) as [owned Howned].
  eexists. split; [by eapply erase_node_in_table|].
  set (that := pipeline.with_nodes _ this).
  assert (pipeline.erased that h) as Herased.
  { unfold pipeline.erased, that. cbn. by apply list_lookup_insert_eq. }
  assert (length (pipeline.nodes that) = length (pipeline.nodes this)) as Hlen
    by apply length_insert.
  assert (exists r, pipeline.get_node other that = Returns r that) as [r Hr].
  { destruct Hother as [->|Hlt'].
    - exists None. apply (get_node_invalid that).
    - destruct (get_node_cases that other)
        as [[_ Hget]|[(_ & Hge & _)|(_ & o & _ & Hget)]]; [by eexists|lia|by eexists]. }
  split.
  - eapply connect_stale_src; [by right|done].
  - eapply connect_stale_dst; [done|by right].
Qed.

Lemma connect_after_erase_node_throws_witness :
  exists that : pipeline.t stub.t,
    pipeline.erase_node 0%N int_to_int = Returns tt that
    /\ pipeline.connect 0%N 1%N 0 that
       = Throws {| kind := pipeline_error_kind.invalid_node_id |} that
    /\ pipeline.connect 1%N 0%N 0 that
       = Throws {| kind := pipeline_error_kind.invalid_node_id |} that.
Proof.
  apply (connect_after_erase_node_throws int_to_int 0%N 1%N 0).
  - discriminate.
  - cbn. lia.
  - right. cbn. lia.
Defined.

(** X14: [connect] between two live nodes whose destination accepts the
    binding returns; afterwards the destination's handle resolves to the
    destination as its own [connect] left it, the source is untouched
    (when it is another node) and the connection list is as it was. *)
Theorem connect_live_returns {Nd : Type} `{!node.t Nd}
    (this : pipeline.t Nd) src dst slot src_obj dst_obj dst_obj' :
  src <> pipeline.numeric_limits_max ->
  dst <> pipeline.numeric_limits_max ->
  pipeline.nodes this !! N.to_nat src = Some (Some src_obj) ->
  pipeline.nodes this !! N.to_nat dst = Some (Some dst_obj) ->
  node.connect (pipeline.nodes this) src slot dst_obj = Returns tt dst_obj' ->
  exists that,
    pipeline.connect src dst slot this = Returns tt that
    /\ pipeline.get_node dst that = Returns (Some dst_obj') that
    /\ (src <> dst -> pipeline.get_node src that = Returns (Some src_obj) that)
    /\ pipeline.connections that = pipeline.connections this.
Proof.
  intros Hsrc Hdst Hlsrc Hldst Hconnect.
  eexists. split.
  { rewrite (connect_live this src dst slot src_obj dst_obj)
      by by apply get_node_in_table.
    unfold pipeline.on_node. by rewrite Hconnect. }
  split; [|split; [|done]].
  - apply get_node_in_table; [done|]. cbn.
    apply list_lookup_insert_eq. by eapply lookup_lt_Some.
  - intros Hne. apply get_node_in_table; [done|]. cbn.
    rewrite list_lookup_insert_ne; [done|]. lia.
Qed.

Lemma connect_live_returns_witness :
  exists that : pipeline.t stub.t,
    pipeline.connect 0%N 1%N 0 int_to_int = Returns tt that
    /\ pipeline.get_node 1%N that = Returns (Some (bound_sink stub.int_type 0%N)) that
    /\ (0%N <> 1%N -> pipeline.get_node 0%N that = Returns (Some int_source_A) that)
    /\ pipeline.connections that = pipeline.connections int_to_int.
Proof.
  apply (connect_live_returns int_to_int 0%N 1%N 0 int_source_A int_sink_B
           (bound_sink stub.int_type 0%N)); try reflexivity; discriminate.
Defined.

(** X15: [connect] has no defined behaviour in three cases only: the
    source handle is not the invalid one and lies at or past the end of
    the table, the destination handle does, or both nodes are live and
    the destination's own [connect] has none. *)
Theorem connect_undefined_iff {Nd : Type} `{!node.t Nd}
    (this : pipeline.t Nd) src dst slot :
  pipeline.connect src dst slot this = Undefined
  <-> (src <> pipeline.numeric_limits_max
       /\ length (pipeline.nodes this) <= N.to_nat src)
      \/ (dst <> pipeline.numeric_limits_max
          /\ length (pipeline.nodes this) <= N.to_nat dst)
      \/ (exists src_obj dst_obj,
            pipeline.get_node src this = Returns (Some src_obj) this
            /\ pipeline.get_node dst this = Returns (Some dst_obj) this
            /\ node.connect (pipeline.nodes this) src slot dst_obj = Undefined).
Proof.
  destruct (get_node_cases this src)
    as [[Hs Hsrc]|[(Hs & Hslen & Hsrc)|(Hs & src_node & Hsl & Hsrc)]].
  - (* the source is the invalid handle *)
    destruct (get_node_cases this dst)
      as [[Hd Hdst]|[(Hd & Hdlen & Hdst)|(Hd & dst_node & Hdl & Hdst)]].
    + rewrite (connect_unfold this _ _ _ _ _ Hsrc Hdst). split; [done|].
      intros [[? _]|[[? _]|(? & ? & ? & _)]]; [done|done|congruence].
    + split; [by auto|]. intros _. unfold pipeline.connect, bind.
      by rewrite Hsrc, Hdst.
    + rewrite (connect_unfold this _ _ _ _ _ Hsrc Hdst). split; [done|].
      intros [[? _]|[[_ Hlen]|(? & ? & ? & _)]]; [done| |congruence].
      apply lookup_lt_Some in Hdl. lia.
  - (* the source lies outside the table *)
    split; [by auto|]. intros _. by apply connect_src_outside.
  - (* the source names a slot *)
    apply lookup_lt_Some in Hsl as Hslt.
    destruct (get_node_cases this dst)
      as [[Hd Hdst]|[(Hd & Hdlen & Hdst)|(Hd & dst_node & Hdl & Hdst)]].
    + rewrite (connect_unfold this _ _ _ _ _ Hsrc Hdst). split.
      * by destruct src_node.
      * intros [[_ ?]|[[? _]|(? & ? & _ & ? & _)]]; [lia|done|congruence].
    + split; [by auto|]. intros _. by eapply connect_dst_outside.
    + apply lookup_lt_Some in Hdl as Hdlt.
      rewrite (connect_unfold this _ _ _ _ _ Hsrc Hdst).
      destruct src_node as [src_obj|], dst_node as [dst_obj|]; try (split; [done|]).
      * unfold pipeline.on_node. split.
        -- destruct (node.connect (pipeline.nodes this) src slot dst_obj) eqn:Hc;
             [done..|].
           intros _. right. right. by exists src_obj, dst_obj.
        -- intros [[_ ?]|[[_ ?]|(s & d & _ & Hd' & Hc)]]; [lia..|].
           assert (d = dst_obj) as -> by congruence. by rewrite Hc.
      * intros [[_ ?]|[[_ ?]|(? & ? & _ & ? & _)]]; [lia..|congruence].
      * intros [[_ ?]|[[_ ?]|(? & ? & ? & _)]]; [lia..|congruence].
      * intros [[_ ?]|[[_ ?]|(? & ? & ? & _)]]; [lia..|congruence].
Qed.

Lemma connect_undefined_iff_witness :
  pipeline.connect 0%N 5%N 0 one_source = Undefined.
Proof.
  apply (proj2 (connect_undefined_iff one_source 0%N 5%N 0)).
  right. left. split; [discriminate|cbn; lia].
Defined.

(** * Further properties of run *)

Lemma run_throws {Nd : Type} (step : call (pipeline.t Nd) bool) k :
  forall fuel (this this1 that : pipeline.t Nd) e,
    pipeline.steps step k this this1 ->
    step this1 = Throws e that ->
    k < fuel ->
    pipeline.run step fuel this = Some (Throws e that).
Proof.
  induction k as [|k IH]; intros fuel this this1 that e Hsteps Hlast Hfuel;
    (destruct fuel as [|fuel]; [lia|]); inversion Hsteps; subst; cbn.
  - by rewrite Hlast.
  - rewrite H0. eapply IH; [done..|lia].
Qed.

Lemma run_thrown {Nd : Type} (step : call (pipeline.t Nd) bool) fuel :
  forall (this that : pipeline.t Nd) e,
    pipeline.run step fuel this = Some (Throws e that) ->
    exists k this1,
      k < fuel /\ pipeline.steps step k this this1 /\ step this1 = Throws e that.
Proof.
  induction fuel as [|fuel IH]; intros this that e; cbn; [done|].
  destruct (step this) as [[] this'|e' this'|] eqn:Hstep; try done.
  - intros (k & this1 & Hk & Hsteps & Hlast)%IH.
    exists (S k), this1. split; [lia|]. split; [|done]. by econstructor.
  - intros [= <- <-]. exists 0, this. split; [lia|]. split; [constructor|done].
Qed.

(** X16: [run] returns exactly when some call of [step] reports
    completion after all the calls before it have reported that the
    graph is not complete; it then leaves the pipeline as that last call
    of [step] left it. *)
Theorem run_returns_iff {Nd : Type} (step : call (pipeline.t Nd) bool)
    fuel (this that : pipeline.t Nd) :
  pipeline.run step fuel this = Some (Returns tt that)
  <-> exists k this1,
        k < fuel /\ pipeline.steps step k this this1 /\ step this1 = Returns true that.
Proof.
  split; [apply run_returned|].
  intros (k & this1 & Hk & Hsteps & Hlast). by eapply run_returns.
Qed.

Lemma run_returns_iff_witness :
  exists k this1,
    k < 4
    /\ pipeline.steps draining_step k three_nodes this1
    /\ draining_step this1 = Returns true (pipeline.with_nodes [] three_nodes).
Proof.
  apply (proj1 (run_returns_iff draining_step 4 three_nodes
                  (pipeline.with_nodes [] three_nodes))).
  reflexivity.
Defined.

(** X17: [run] catches nothing: it throws exactly when a call of [step]
    throws after all the calls before it have reported that the graph is
    not complete, and it throws that same exception, with the pipeline
    as that call of [step] left it. *)
Theorem run_throws_iff {Nd : Type} (step : call (pipeline.t Nd) bool)
    fuel (this that : pipeline.t Nd) e :
  pipeline.run step fuel this = Some (Throws e that)
  <-> exists k this1,
        k < fuel /\ pipeline.steps step k this this1 /\ step this1 = Throws e that.
Proof.
  split; [apply run_thrown|].
  intros (k & this1 & Hk & Hsteps & Hlast). by eapply run_throws.
Qed.

Lemma run_throws_iff_witness :
  exists k this1,
    k < 4
    /\ pipeline.steps failing_step k three_nodes this1
    /\ failing_step this1
       = Throws {| kind := pipeline_error_kind.invalid_node_id |}
           (pipeline.with_nodes [] three_nodes).
Proof.
  apply (proj1 (run_throws_iff failing_step 4 three_nodes
                  (pipeline.with_nodes [] three_nodes)
                  {| kind := pipeline_error_kind.invalid_node_id |})).
  reflexivity.
Defined.

(** The bound on the number of iterations is a device of the embedding:
    once the loop has ended within some bound, it ends the same way
    within every larger one. *)
Lemma run_bound_irrelevant {Nd : Type} (step : call (pipeline.t Nd) bool) fuel :
  forall fuel' (this : pipeline.t Nd) r,
    pipeline.run step fuel this = Some r ->
    fuel <= fuel' ->
    pipeline.run step fuel' this = Some r.
Proof.
  induction fuel as [|fuel IH]; intros fuel' this r; cbn; [done|].
  intros Hrun Hle. destruct fuel' as [|fuel']; [lia|]. cbn.
  destruct (step this) as [[] this'|e this'|]; try done.
  apply IH; [done|lia].
Qed.

Lemma run_bound_irrelevant_example :
  pipeline.run draining_step 9 three_nodes
  = Some (Returns tt (pipeline.with_nodes [] three_nodes)).
Proof.
  apply (run_bound_irrelevant draining_step 4 9 three_nodes).
  - reflexivity.
  - lia.
Defined.

(** X18: if [step] never reports completion, [run] never ends: the loop
    has not ended within any bound on the number of iterations. *)
Theorem run_never_ends {Nd : Type} (step : call (pipeline.t Nd) bool) :
  (forall this, exists that, step this = Returns false that) ->
  forall fuel this, pipeline.run step fuel this = None.
Proof.
  intros Hstep fuel. induction fuel as [|fuel IH]; intros this; [done|].
  cbn. destruct (Hstep this) as [that ->]. apply IH.
Qed.

Lemma run_never_ends_witness :
  pipeline.run idle_step 1000 three_nodes = None.
Proof.
  apply (run_never_ends idle_step).
  intros this. exists this. reflexivity.
Defined.

(** X19: [run] does nothing to the pipeline but call [step]: a property
    of the pipeline that every call of [step] keeps, whether it returns
    or throws, holds when [run] returns or throws. *)
Theorem run_keeps_invariant {Nd : Type} (step : call (pipeline.t Nd) bool)
    (I : pipeline.t Nd -> Prop) :
  (forall this b that, I this -> step this = Returns b that -> I that) ->
  (forall this e that, I this -> step this = Throws e that -> I that) ->
  forall fuel this that,
    I this ->
    (pipeline.run step fuel this = Some (Returns tt that)
     \/ exists e, pipeline.run step fuel this = Some (Throws e that)) ->
    I that.
Proof.
  intros Hreturns Hthrows fuel.
  induction fuel as [|fuel IH]; intros this that Hthis; cbn.
  { by intros [?|[? ?]]. }
  destruct (step this) as [[] this'|e' this'|] eqn:Hstep.
  - intros [[= <-]|[e [=]]]. by eapply Hreturns.
  - apply IH. by eapply Hreturns.
  - intros [[=]|[e [= _ <-]]]. by eapply Hthrows.
  - by intros [?|[? ?]].
Qed.

Lemma run_keeps_invariant_witness :
  pipeline.connections (pipeline.with_nodes [] three_nodes) = [].
Proof.
  apply (run_keeps_invariant failing_step
           (fun this => pipeline.connections this = [])) with (fuel := 4) (this := three_nodes).
  - intros this b that Hthis. unfold failing_step.
    destruct (pipeline.nodes this); intros [= _ <-]; exact Hthis.
  - intros this e that Hthis. unfold failing_step.
    destruct (pipeline.nodes this); intros [= _ <-]; exact Hthis.
  - reflexivity.
  - right. exists {| kind := pipeline_error_kind.invalid_node_id |}. reflexivity.
Defined.
